(** * Verification of [src/abm.rs]: Arithmetic Brownian Motion path simulation.

    [f64] values are modelled bit-exactly as IEEE 754 binary64 numbers with the
    Standard Library's [SpecFloat] ([prec = 53], [emax = 1024]): every [+], [*],
    [/] and [sqrt] of the Rust code is the correctly rounded (round to nearest,
    ties to even) operation on [spec_float].  [usize] is [nat]; Rust's panics
    (index out of bounds) are the [None] of the option monad.  [rand::thread_rng()] is a
    thread-local stream of [u64] words read by a cursor. *)

From Stdlib Require Import ZArith Lia SpecFloat.
From stdpp Require Import base list option.

Open Scope Z_scope.

Module abm.

(** ** f64 as binary64 *)

Abbreviation f64 := spec_float.

Definition prec : Z := 53.
Definition emax : Z := 1024.

Definition f64_add (x y : f64) : f64 := SFadd prec emax x y.
Definition f64_mul (x y : f64) : f64 := SFmul prec emax x y.
Definition f64_div (x y : f64) : f64 := SFdiv prec emax x y.
(** [f64::sqrt] *)
Definition f64_sqrt (x : f64) : f64 := SFsqrt prec emax x.

(** [n as f64] for an integer [n] ([usize] or [u64]): rounded to nearest. *)
Definition f64_of_int (n : Z) : f64 := binary_normalize prec emax n 0 false.

(** The literal [m * 10^-k] as the Rust parser reads it: the correctly rounded
    quotient of two exactly representable integers. *)
Definition f64_lit (m : Z) (k : nat) : f64 := f64_div (f64_of_int m) (f64_of_int (10 ^ Z.of_nat k)).

Definition f64_is_nan (x : f64) : bool :=
  match x with S754_nan => true | _ => false end.

Definition f64_is_finite (x : f64) : bool :=
  match x with S754_zero _ | S754_finite _ _ _ => true | _ => false end.

Definition f64_lt (x y : f64) : bool := SFltb x y.
Definition f64_le (x y : f64) : bool := SFleb x y.

Definition zero : f64 := S754_zero false.

(** ** Vectors *)

(** [vec![elem; n]].  Allocation is taken to succeed: sizes that cannot be
    allocated (capacity overflow, out of memory, and [n_steps = usize::MAX],
    where [n_steps + 1] would overflow) stop the process before [simulate]
    returns and are outside this model. *)
Definition vec_from_elem {A} (elem : A) (n : nat) : list A := repeat elem n.

(** [v[i][j]] (panics out of bounds). *)
Definition index2 (v : list (list f64)) (i j : nat) : option f64 :=
  row ← v !! i; row !! j.

(** [v[i][j] = x] (panics out of bounds). *)
Definition set2 (v : list (list f64)) (i j : nat) (x : f64) : option (list (list f64)) :=
  row ← v !! i; _ ← row !! j; Some (<[i := <[j := x]> row]> v).

(** [for k in xs { body }] threading the loop state [s]. *)
Fixpoint for_each {S} (xs : list nat) (body : nat -> S -> option S) (s : S) : option S :=
  match xs with
  | [] => Some s
  | k :: xs' => s' ← body k s; for_each xs' body s'
  end.

(** ** The random number generator *)

(** [rand::thread_rng()]: the thread-local generator, a stream of [u64] words
    ([rng_words]) of which [rng_pos] have been consumed. *)
Record ThreadRng := { rng_words : nat -> Z; rng_pos : nat }.

Definition next_u64 (rng : ThreadRng) : Z * ThreadRng :=
  (rng_words rng (rng_pos rng) mod 2 ^ 64,
   {| rng_words := rng_words rng; rng_pos := S (rng_pos rng) |}).

(** [rng.gen::<f64>()] ([rand] 0.8, [Standard] distribution for [f64]):
    [let precision = 52 + 1; let scale = 1.0 / ((1u64 << precision) as f64);
     let value: u64 = rng.gen(); let value = value >> (64 - precision);
     scale * value as f64]. *)
Definition gen_precision : Z := 52 + 1.
Definition gen_scale : f64 := f64_div (f64_of_int 1) (f64_of_int (Z.shiftl 1 gen_precision)).
Definition gen_f64_of_u64 (value : Z) : f64 :=
  f64_mul gen_scale (f64_of_int (Z.shiftr value (64 - gen_precision))).
Definition gen_f64 (rng : ThreadRng) : f64 * ThreadRng :=
  let '(value, rng') := next_u64 rng in (gen_f64_of_u64 value, rng').

(** ** [ArithmeticBrownianMotion] *)

Record ArithmeticBrownianMotion := {
  mu : f64;
  sigma : f64;
  n_paths : nat;
  n_steps : nat;
  t_end : f64;
  s_0 : f64
}.

(** [ArithmeticBrownianMotion::new] *)
Definition new (mu sigma : f64) (n_paths n_steps : nat) (t_end s_0 : f64) : ArithmeticBrownianMotion :=
  {| mu := mu; sigma := sigma; n_paths := n_paths; n_steps := n_steps; t_end := t_end; s_0 := s_0 |}.

(** [let dt = self.t_end / self.n_steps as f64;] *)
Definition time_step (self : ArithmeticBrownianMotion) : f64 :=
  f64_div (t_end self) (f64_of_int (Z.of_nat (n_steps self))).

(** The body of [for j in 1..=self.n_steps] for path [i]:
    [let d_w = rng.gen::<f64>() * dt.sqrt();
     paths[i][j] = paths[i][j - 1] + self.mu * dt + self.sigma * d_w;] *)
Definition step_body (self : ArithmeticBrownianMotion) (dt : f64) (i j : nat)
    (st : list (list f64) * ThreadRng) : option (list (list f64) * ThreadRng) :=
  let '(paths, rng) := st in
  let '(g, rng) := gen_f64 rng in
  let d_w := f64_mul g (f64_sqrt dt) in
  prev ← index2 paths i (j - 1);
  paths ← set2 paths i j (f64_add (f64_add prev (f64_mul (mu self) dt)) (f64_mul (sigma self) d_w));
  Some (paths, rng).

(** The body of [for i in 0..self.n_paths]. *)
Definition path_body (self : ArithmeticBrownianMotion) (dt : f64) (i : nat)
    (st : list (list f64) * ThreadRng) : option (list (list f64) * ThreadRng) :=
  for_each (seq 1 (n_steps self)) (step_body self dt i) st.

(** [ArithmeticBrownianMotion::simulate], with the thread-local generator
    passed in and handed back. *)
Definition simulate (self : ArithmeticBrownianMotion) (rng : ThreadRng)
    : option (list (list f64) * ThreadRng) :=
  let dt := time_step self in
  let paths := vec_from_elem (vec_from_elem (s_0 self) (n_steps self + 1)) (n_paths self) in
  for_each (seq 0 (n_paths self)) (path_body self dt) (paths, rng).

(** ** Functional model of the two loops

    The path that [for j in 1..=self.n_steps] writes into [paths[i]], computed
    by recursion on the number of remaining steps; used to reason about
    [simulate]. *)

(** The [k]-th draw from [rng] onward. *)
Definition draw_at (rng : ThreadRng) (k : nat) : f64 :=
  gen_f64_of_u64 (rng_words rng (rng_pos rng + k) mod 2 ^ 64).

(** One Euler-Maruyama update for the uniform draw [g]. *)
Definition euler_step (self : ArithmeticBrownianMotion) (dt prev g : f64) : f64 :=
  f64_add (f64_add prev (f64_mul (mu self) dt)) (f64_mul (sigma self) (f64_mul g (f64_sqrt dt))).

Fixpoint euler_tail (self : ArithmeticBrownianMotion) (dt prev : f64) (n : nat) (rng : ThreadRng)
    : list f64 * ThreadRng :=
  match n with
  | O => ([], rng)
  | S n' =>
      let '(g, rng1) := gen_f64 rng in
      let x := euler_step self dt prev g in
      let '(rest, rng2) := euler_tail self dt x n' rng1 in
      (x :: rest, rng2)
  end.

Definition euler_path (self : ArithmeticBrownianMotion) (dt : f64) (rng : ThreadRng)
    : list f64 * ThreadRng :=
  let '(rest, rng') := euler_tail self dt (s_0 self) (n_steps self) rng in
  (s_0 self :: rest, rng').

Fixpoint euler_paths (self : ArithmeticBrownianMotion) (dt : f64) (k : nat) (rng : ThreadRng)
    : list (list f64) * ThreadRng :=
  match k with
  | O => ([], rng)
  | S k' =>
      let '(p, rng1) := euler_path self dt rng in
      let '(ps, rng2) := euler_paths self dt k' rng1 in
      (p :: ps, rng2)
  end.

(** The generator after [k] more draws. *)
Definition advance (rng : ThreadRng) (k : nat) : ThreadRng :=
  {| rng_words := rng_words rng; rng_pos := rng_pos rng + k |}.


(** ** The caller's view: [&self] and the thread-local generator *)

(** The state a call of [simulate] can touch: the simulator, borrowed as
    [&self], and the thread-local generator. *)
Record World := { w_sim : ArithmeticBrownianMotion; w_rng : ThreadRng }.

Definition simulate_call (w : World) : option (list (list f64) * World) :=
  '(paths, rng') ← simulate (w_sim w) (w_rng w);
  Some (paths, {| w_sim := w_sim w; w_rng := rng' |}).

(** ** Concrete inputs *)

(** A generator whose every word is [0], and one with varied words. *)
Definition rng_zero : ThreadRng := {| rng_words := fun _ => 0; rng_pos := 0 |}.
Definition rng_sample : ThreadRng :=
  {| rng_words := fun n => (Z.of_nat n + 1) * 11400714819323198485; rng_pos := 0 |}.


(** [drift=0.05, volatility=0.0, path_count=1, step_count=4, horizon=1.0,
    initial_value=100.0] *)
Definition abm_det : ArithmeticBrownianMotion :=
  new (f64_lit 5 2) zero 1 4 (f64_of_int 1) (f64_of_int 100).

(** The path that the spec lists for [abm_det]:
    [[100.0, 100.0125, 100.025, 100.0375, 100.05]]. *)
Definition abm_det_spec_path : list f64 :=
  [f64_of_int 100; f64_lit 1000125 4; f64_lit 100025 3; f64_lit 1000375 4; f64_lit 10005 2].

(** The path [simulate] returns for [abm_det]:
    [[100.0, 100.0125, 100.025, 100.03750000000001, 100.05000000000001]],
    the last two one unit in the last place above the listed values. *)
Definition abm_det_path : list f64 :=
  [f64_of_int 100; f64_lit 1000125 4; f64_lit 100025 3;
   SFsucc prec emax (f64_lit 1000375 4); SFsucc prec emax (f64_lit 10005 2)].

(** [horizon = -1.0]: a negative time step. *)
Definition abm_neg : ArithmeticBrownianMotion :=
  new (f64_lit 5 2) (f64_lit 4 1) 1 1 (f64_of_int (-1)) (f64_of_int 100).



(** [step_count = 0]. *)
Definition abm_zero_steps : ArithmeticBrownianMotion :=
  new (f64_lit 5 2) (f64_lit 4 1) 3 0 (f64_of_int 1) (f64_of_int 200).

(** [drift = 0.0], [volatility = 0.0], two paths of two steps from [100.0]. *)
Definition abm_flat : ArithmeticBrownianMotion :=
  new zero zero 2 2 (f64_of_int 1) (f64_of_int 100).

(** [horizon = NaN]. *)
Definition abm_nan_horizon : ArithmeticBrownianMotion :=
  new (f64_lit 5 2) (f64_lit 4 1) 1 2 S754_nan (f64_of_int 100).

(** ** Lemmas: [simulate] refines the functional model *)

Lemma gen_f64_draw (rng : ThreadRng) : gen_f64 rng = (draw_at rng 0, advance rng 1).
Proof.
  destruct rng as [w p]. unfold gen_f64, next_u64, draw_at, advance. simpl.
  rewrite Nat.add_0_r, Nat.add_1_r. reflexivity.
Qed.

Lemma advance_advance (rng : ThreadRng) (a b : nat) : advance (advance rng a) b = advance rng (a + b).
Proof. unfold advance. simpl. f_equal. lia. Qed.

Lemma draw_at_advance (rng : ThreadRng) (a b : nat) : draw_at (advance rng a) b = draw_at rng (a + b).
Proof. unfold draw_at, advance. simpl. do 3 f_equal. lia. Qed.

Lemma euler_tail_S self dt prev n rng :
  euler_tail self dt prev (S n) rng =
  let x := euler_step self dt prev (draw_at rng 0) in
  let '(rest, rng2) := euler_tail self dt x n (advance rng 1) in (x :: rest, rng2).
Proof. cbn [euler_tail]. rewrite gen_f64_draw. reflexivity. Qed.

Lemma euler_tail_spec self dt prev n rng :
  snd (euler_tail self dt prev n rng) = advance rng n /\ length (fst (euler_tail self dt prev n rng)) = n.
Proof.
  revert prev rng. induction n as [|n IH]; intros prev rng; cbn [euler_tail].
  - unfold advance. destruct rng; simpl. rewrite Nat.add_0_r. auto.
  - rewrite gen_f64_draw. cbn beta iota.
    destruct (euler_tail self dt (euler_step self dt prev (draw_at rng 0)) n (advance rng 1)) as [rest rng2] eqn:E.
    specialize (IH (euler_step self dt prev (draw_at rng 0)) (advance rng 1)). rewrite E in IH.
    simpl in *. destruct IH as [-> ->]. rewrite advance_advance. auto.
Qed.

Lemma step_body_eq self dt (i j : nat) (paths : list (list f64)) rng :
  step_body self dt i j (paths, rng) =
  (prev ← index2 paths i (j - 1);
   paths' ← set2 paths i j (euler_step self dt prev (draw_at rng 0));
   Some (paths', advance rng 1)).
Proof. unfold step_body. rewrite gen_f64_draw. reflexivity. Qed.

Lemma inner_loop self dt (i : nat) (paths : list (list f64)) (row : list f64) (k j : nat) prev rng :
  paths !! i = Some row -> row !! (j - 1)%nat = Some prev -> (1 <= j)%nat -> (j + k <= length row)%nat ->
  for_each (seq j k) (step_body self dt i) (paths, rng) =
  Some (<[i := take j row ++ fst (euler_tail self dt prev k rng) ++ drop (j + k) row]> paths,
        snd (euler_tail self dt prev k rng)).
Proof.
  revert paths row j prev rng. induction k as [|k IH]; intros paths row j prev rng Hi Hj H1 Hk.
  - simpl. rewrite Nat.add_0_r, take_drop, list_insert_id; auto.
  - cbn [seq for_each]. rewrite step_body_eq, euler_tail_S.
    set (x := euler_step self dt prev (draw_at rng 0)).
    destruct (euler_tail self dt x k (advance rng 1)) as [rest rng2] eqn:Et.
    unfold index2, set2. rewrite Hi. simpl. rewrite Hj. simpl.
    destruct (lookup_lt_is_Some_2 row j) as [y Hy]; [lia|]. rewrite Hy. simpl.
    assert (Hi' : paths !! i = Some row) by exact Hi.
    apply lookup_lt_Some in Hi'.
    rewrite (IH _ (<[j := x]> row) (S j) x); [| rewrite list_lookup_insert_eq; auto; lia
      | simpl; rewrite Nat.sub_0_r, list_lookup_insert_eq; auto; lia | lia
      | rewrite length_insert; lia].
    rewrite Et. simpl.
    rewrite list_insert_insert_eq. f_equal. f_equal. f_equal.
    rewrite (take_S_r _ _ x) by (apply list_lookup_insert_eq; lia).
    rewrite take_insert_ge by lia. rewrite drop_insert_lt by lia.
    rewrite <- app_assoc, Nat.add_succ_r. reflexivity.
Qed.

Lemma path_body_eq self dt (i : nat) st :
  path_body self dt i st = for_each (seq 1 (n_steps self)) (step_body self dt i) st.
Proof. reflexivity. Qed.

Lemma outer_loop self dt (k : nat) (done : list (list f64)) rng :
  for_each (seq (length done) k) (path_body self dt)
    (done ++ repeat (repeat (s_0 self) (n_steps self + 1)) k, rng) =
  Some (done ++ fst (euler_paths self dt k rng), snd (euler_paths self dt k rng)).
Proof.
  revert done rng. induction k as [|k IH]; intros done rng.
  - simpl. rewrite app_nil_r. reflexivity.
  - cbn [seq for_each euler_paths]. unfold euler_path.
    destruct (euler_tail self dt (s_0 self) (n_steps self) rng) as [rest rng1] eqn:Ep.
    destruct (euler_paths self dt k rng1) as [ps rng2] eqn:Eps.
    set (row0 := repeat (s_0 self) (n_steps self + 1)).
    rewrite path_body_eq, (inner_loop self dt (length done) _ row0 (n_steps self) 1 (s_0 self) rng).
    2: { rewrite lookup_app_r, Nat.sub_diag by lia. reflexivity. }
    2: { unfold row0. rewrite Nat.add_1_r. reflexivity. }
    2: lia.
    2: { unfold row0. rewrite repeat_length. lia. }
    rewrite Ep. cbn [fst snd mbind option_bind].
    replace (take 1 row0 ++ rest ++ drop (1 + n_steps self) row0) with (s_0 self :: rest).
    2: { unfold row0. rewrite (drop_ge (repeat _ _)) by (rewrite repeat_length; lia).
         rewrite Nat.add_1_r, app_nil_r. reflexivity. }
    replace (length done) with (length done + 0)%nat at 2 by lia.
    rewrite insert_app_r. cbn [repeat]. simpl (<[0%nat := _]> (_ :: _)).
    replace (done ++ (s_0 self :: rest) :: repeat row0 k) with ((done ++ [s_0 self :: rest]) ++ repeat row0 k)
      by (rewrite <- app_assoc; reflexivity).
    replace (S (length done)) with (length (done ++ [s_0 self :: rest]))
      by (rewrite length_app; simpl; lia).
    unfold row0. rewrite IH, Eps. simpl. rewrite <- app_assoc. reflexivity.
Qed.

(** [simulate] never panics and computes the functional model. *)
Lemma simulate_refines (self : ArithmeticBrownianMotion) (rng : ThreadRng) :
  simulate self rng = Some (euler_paths self (time_step self) (n_paths self) rng).
Proof.
  unfold simulate, vec_from_elem.
  pose proof (outer_loop self (time_step self) (n_paths self) [] rng) as H. simpl in H.
  rewrite H. destruct (euler_paths _ _ _ _). reflexivity.
Qed.

Lemma advance_0 (rng : ThreadRng) : advance rng 0 = rng.
Proof. destruct rng. unfold advance. simpl. rewrite Nat.add_0_r. reflexivity. Qed.

Lemma euler_paths_spec self dt (k : nat) rng :
  length (fst (euler_paths self dt k rng)) = k /\
  snd (euler_paths self dt k rng) = advance rng (k * n_steps self) /\
  forall (i : nat) (p : list f64), fst (euler_paths self dt k rng) !! i = Some p ->
    p = s_0 self :: fst (euler_tail self dt (s_0 self) (n_steps self) (advance rng (i * n_steps self))).
Proof.
  revert rng. induction k as [|k IH]; intros rng.
  - simpl. rewrite advance_0.
    split; [reflexivity|]. split; [reflexivity|]. intros i p Hp. discriminate.
  - cbn [euler_paths]. unfold euler_path.
    pose proof (euler_tail_spec self dt (s_0 self) (n_steps self) rng) as [Hr _].
    destruct (euler_tail self dt (s_0 self) (n_steps self) rng) as [rest rng1] eqn:Et.
    simpl in Hr. subst rng1.
    destruct (IH (advance rng (n_steps self))) as (Hl & Hs & Hp).
    destruct (euler_paths self dt k (advance rng (n_steps self))) as [ps rng2] eqn:Eps.
    simpl in *. split; [lia|]. split.
    + rewrite Hs, advance_advance. reflexivity.
    + intros [|i] p Hi; simpl in Hi.
      * injection Hi as <-. rewrite Nat.mul_0_l, advance_0, Et. reflexivity.
      * rewrite (Hp i p Hi), advance_advance. reflexivity.
Qed.

Lemma euler_tail_lookup self dt prev (n : nat) rng (j : nat) :
  (j < n)%nat ->
  exists pj, (prev :: fst (euler_tail self dt prev n rng)) !! j = Some pj /\
             (prev :: fst (euler_tail self dt prev n rng)) !! S j = Some (euler_step self dt pj (draw_at rng j)).
Proof.
  revert prev rng j. induction n as [|n IH]; intros prev rng j Hj; [lia|].
  rewrite euler_tail_S. cbv zeta.
  destruct (euler_tail self dt (euler_step self dt prev (draw_at rng 0)) n (advance rng 1)) as [rest rng2] eqn:Et.
  destruct j as [|j].
  - exists prev. simpl. split; reflexivity.
  - destruct (IH (euler_step self dt prev (draw_at rng 0)) (advance rng 1) j) as (pj & H1 & H2); [lia|].
    rewrite Et in H1, H2. simpl in *. exists pj. split; [exact H1|].
    rewrite H2, draw_at_advance. reflexivity.
Qed.

(** Every entry [p[j]] with [1 <= j] of a path is an Euler step from [p[j-1]]. *)
Lemma simulate_step_lookup self rng paths rng' (i j : nat) (p : list f64) :
  simulate self rng = Some (paths, rng') -> paths !! i = Some p -> (j < n_steps self)%nat ->
  exists pj, p !! j = Some pj /\
    p !! S j = Some (euler_step self (time_step self) pj (draw_at rng (i * n_steps self + j))).
Proof.
  rewrite simulate_refines. intros Hs Hi Hj. injection Hs as Hps.
  destruct (euler_paths_spec self (time_step self) (n_paths self) rng) as (_ & _ & Hp).
  rewrite Hps in Hp. simpl in Hp. rewrite (Hp i p Hi).
  destruct (euler_tail_lookup self (time_step self) (s_0 self) (n_steps self)
              (advance rng (i * n_steps self)) j Hj) as (pj & H1 & H2).
  exists pj. rewrite draw_at_advance in H2. auto.
Qed.

Lemma f64_mul_nan_r (x : f64) : f64_mul x S754_nan = S754_nan.
Proof. destruct x; reflexivity. Qed.

Lemma f64_add_nan_r (x : f64) : f64_add x S754_nan = S754_nan.
Proof. destruct x as [[]|[]| |[]]; reflexivity. Qed.

Lemma euler_step_neg_dt_nan self dt prev g :
  f64_lt dt zero = true -> euler_step self dt prev g = S754_nan.
Proof.
  intros H. assert (Hs : f64_sqrt dt = S754_nan).
  { destruct dt as [s|s| |s m e]; try discriminate; destruct s; try discriminate; reflexivity. }
  unfold euler_step. rewrite Hs, !f64_mul_nan_r. apply f64_add_nan_r.
Qed.

Lemma euler_paths_no_steps self dt (k : nat) rng :
  n_steps self = 0%nat -> euler_paths self dt k rng = (repeat [s_0 self] k, rng).
Proof.
  intros H. induction k as [|k IH]; [reflexivity|].
  cbn [euler_paths]. unfold euler_path. rewrite H. cbn [euler_tail]. rewrite IH. reflexivity.
Qed.

(** ** Lemmas: binary64 rounding, the draws and the noise term *)

(** [binary_round_aux] on an exact input: no overflow below [2^1024], and
    exact results when nothing or only zeros are shifted out. *)

Lemma digits2_pos_log2 (p : positive) : Zpos (digits2_pos p) = Z.log2 (Zpos p) + 1.
Proof.
  induction p as [p IH|p IH|]; simpl digits2_pos.
  - rewrite Pos2Z.inj_succ, IH, Pos2Z.inj_xI, Z.log2_succ_double by lia. lia.
  - rewrite Pos2Z.inj_succ, IH, Pos2Z.inj_xO, Z.log2_double by lia. lia.
  - reflexivity.
Qed.

Lemma digits2_pos_bounds (p : positive) :
  2 ^ (Zpos (digits2_pos p) - 1) <= Zpos p < 2 ^ Zpos (digits2_pos p).
Proof.
  rewrite digits2_pos_log2. replace (Z.log2 (Zpos p) + 1 - 1) with (Z.log2 (Zpos p)) by lia.
  pose proof (Z.log2_spec (Zpos p)) as H. rewrite <- Z.add_1_r in H. apply H. lia.
Qed.

Lemma shr_1_m (mrs : shr_record) : 0 <= shr_m mrs -> shr_m (shr_1 mrs) = Z.div2 (shr_m mrs).
Proof. destruct mrs as [[|[p|p|]|p] r s]; simpl; intros; try lia; reflexivity. Qed.

Lemma iter_shr_1_m (p : positive) (mrs : shr_record) :
  0 <= shr_m mrs -> shr_m (SpecFloat.iter_pos shr_1 p mrs) = Z.shiftr (shr_m mrs) (Zpos p).
Proof.
  revert mrs. induction p as [p IH|p IH|]; intros mrs H; simpl SpecFloat.iter_pos.
  - assert (H1 : 0 <= shr_m (shr_1 mrs)) by (rewrite shr_1_m by lia; rewrite Z.div2_div; apply Z.div_pos; lia).
    assert (H2 : 0 <= shr_m (SpecFloat.iter_pos shr_1 p (shr_1 mrs))) by (rewrite IH by lia; apply Z.shiftr_nonneg; lia).
    rewrite IH, IH, shr_1_m, Z.div2_spec, !Z.shiftr_shiftr by lia.
    f_equal. lia.
  - assert (H2 : 0 <= shr_m (SpecFloat.iter_pos shr_1 p mrs)) by (rewrite IH by lia; apply Z.shiftr_nonneg; lia).
    rewrite IH, IH, Z.shiftr_shiftr by lia. f_equal. lia.
  - rewrite shr_1_m, Z.div2_spec by lia. reflexivity.
Qed.

Lemma shr_1_exact (q : Z) : 0 <= q ->
  shr_1 (Build_shr_record (2 * q) false false) = Build_shr_record q false false.
Proof. destruct q as [|q|q]; intros H; try lia; reflexivity. Qed.

Lemma iter_pos_xI {A} (f : A -> A) (p : positive) (x : A) :
  SpecFloat.iter_pos f (xI p) x = SpecFloat.iter_pos f p (SpecFloat.iter_pos f p (f x)).
Proof. reflexivity. Qed.

Lemma iter_pos_xO {A} (f : A -> A) (p : positive) (x : A) :
  SpecFloat.iter_pos f (xO p) x = SpecFloat.iter_pos f p (SpecFloat.iter_pos f p x).
Proof. reflexivity. Qed.

Lemma iter_pos_xH {A} (f : A -> A) (x : A) : SpecFloat.iter_pos f xH x = f x.
Proof. reflexivity. Qed.

Lemma iter_shr_1_exact (p : positive) (q : Z) : 0 <= q ->
  SpecFloat.iter_pos shr_1 p (Build_shr_record (q * 2 ^ Zpos p) false false) = Build_shr_record q false false.
Proof.
  revert q. induction p as [p IH|p IH|]; intros q H.
  - rewrite iter_pos_xI.
    replace (q * 2 ^ Zpos p~1) with (2 * ((q * 2 ^ Zpos p) * 2 ^ Zpos p)).
    2: { replace (Zpos p~1) with (Zpos p + Zpos p + 1) by lia. rewrite !Z.pow_add_r by lia. ring. }
    assert (0 <= 2 ^ Zpos p) by (apply Z.pow_nonneg; lia).
    rewrite shr_1_exact by (apply Z.mul_nonneg_nonneg; [apply Z.mul_nonneg_nonneg|]; lia).
    rewrite IH by (apply Z.mul_nonneg_nonneg; lia). apply IH. lia.
  - rewrite iter_pos_xO.
    replace (q * 2 ^ Zpos p~0) with ((q * 2 ^ Zpos p) * 2 ^ Zpos p).
    2: { replace (Zpos p~0) with (Zpos p + Zpos p) by lia. rewrite !Z.pow_add_r by lia. ring. }
    assert (0 <= 2 ^ Zpos p) by (apply Z.pow_nonneg; lia).
    rewrite IH by (apply Z.mul_nonneg_nonneg; lia). apply IH. lia.
  - rewrite iter_pos_xH, Z.pow_1_r, Z.mul_comm. apply shr_1_exact. exact H.
Qed.

Lemma rne_bounds (q : Z) (l : location) : q <= round_nearest_even q l <= q + 1.
Proof. destruct l as [|[]]; simpl; try lia. destruct (Z.even q); lia. Qed.

Lemma fexp_eq (x : Z) : fexp prec emax x = Z.max (x - 53) (-1074).
Proof. reflexivity. Qed.

Lemma Zdigits2_log2 (z : Z) : 0 < z -> Zdigits2 z = Z.log2 z + 1.
Proof. destruct z as [|p|p]; intros H; try lia. apply digits2_pos_log2. Qed.

Lemma shr_m_spec (mrs : shr_record) (e n : Z) : 0 <= shr_m mrs ->
  shr_m (fst (shr mrs e n)) = Z.shiftr (shr_m mrs) (Z.max 0 n) /\ snd (shr mrs e n) = e + Z.max 0 n.
Proof.
  intros H. destruct n as [|p|p]; simpl shr; simpl fst; simpl snd.
  - rewrite Z.shiftr_0_r. lia.
  - rewrite iter_shr_1_m by exact H. split; f_equal; lia.
  - replace (Z.max 0 (Zneg p)) with 0 by lia. rewrite Z.shiftr_0_r. lia.
Qed.

Lemma shr_fexp_spec (m e : Z) (l : location) : 0 <= m ->
  shr_m (fst (shr_fexp prec emax m e l)) = Z.shiftr m (Z.max 0 (Z.max (Zdigits2 m + e - 53) (-1074) - e)) /\
  snd (shr_fexp prec emax m e l) = e + Z.max 0 (Z.max (Zdigits2 m + e - 53) (-1074) - e).
Proof.
  intros H. unfold shr_fexp. rewrite fexp_eq.
  assert (Hm : shr_m (shr_record_of_loc m l) = m) by (destruct l as [|[]]; reflexivity).
  pose proof (shr_m_spec (shr_record_of_loc m l) e (Z.max (Zdigits2 m + e - 53) (-1074) - e)) as Hs.
  rewrite Hm in Hs. exact (Hs H).
Qed.

Lemma shr_fexp_exact (m e : Z) :
  Z.max (Zdigits2 m + e - 53) (-1074) - e <= 0 ->
  shr_fexp prec emax m e loc_Exact = (Build_shr_record m false false, e).
Proof.
  intros H. unfold shr_fexp. rewrite fexp_eq.
  destruct (Z.max (Zdigits2 m + e - 53) (-1074) - e) as [|p|p]; [reflexivity|lia|reflexivity].
Qed.

Lemma round_aux_finite (s : bool) (M : positive) (E : Z) :
  E <= 971 -> Z.log2 (Zpos M) + 1 + E <= 1024 ->
  (Z.log2 (Zpos M) + 1 + E = 1024 -> Z.shiftr (Zpos M) (Z.log2 (Zpos M) - 52) < 2 ^ 53 - 1) ->
  binary_round_aux prec emax s (Zpos M) E loc_Exact = S754_zero s \/
  exists m e, binary_round_aux prec emax s (Zpos M) E loc_Exact = S754_finite s m e.
Proof.
  intros HE HD Hb. unfold binary_round_aux.
  pose proof (Z.log2_nonneg (Zpos M)) as HL0.
  assert (HDM : Zdigits2 (Zpos M) = Z.log2 (Zpos M) + 1) by (apply Zdigits2_log2; lia).
  set (L := Z.log2 (Zpos M)) in *.
  destruct (Z_le_gt_dec (Z.max (L + 1 + E - 53) (-1074) - E) 0) as [Hn1|Hn1].
  - rewrite shr_fexp_exact by lia. cbn [shr_m loc_of_shr_record round_nearest_even].
    rewrite shr_fexp_exact by lia. cbn [shr_m]. right. exists M, E.
    replace (E <=? emax - prec) with true by (symmetry; apply Z.leb_le; unfold emax, prec; lia).
    reflexivity.
  - pose proof (shr_fexp_spec (Zpos M) E loc_Exact) as [Hm1 He1]; [lia|].
    destruct (shr_fexp prec emax (Zpos M) E loc_Exact) as [mrs1 e1] eqn:Hs1.
    cbn [fst snd] in Hm1, He1. rewrite HDM in Hm1, He1.
    set (n1 := Z.max (L + 1 + E - 53) (-1074) - E) in *.
    replace (Z.max 0 n1) with n1 in Hm1, He1 by lia.
    set (q := shr_m mrs1) in *.
    assert (Hq0 : 0 <= q) by (rewrite Hm1; apply Z.shiftr_nonneg; lia).
    assert (Hlq : Z.log2 q = Z.max 0 (L - n1)) by (rewrite Hm1; apply Z.log2_shiftr; lia).
    pose proof (rne_bounds q (loc_of_shr_record mrs1)) as Hr.
    set (r := round_nearest_even q (loc_of_shr_record mrs1)) in *.
    pose proof (shr_fexp_spec r e1 loc_Exact) as [Hm2 He2]; [lia|].
    destruct (shr_fexp prec emax r e1 loc_Exact) as [mrs2 e2] eqn:Hs2.
    cbn [fst snd] in Hm2, He2.
    assert (H2 : 0 <= shr_m mrs2) by (rewrite Hm2; apply Z.shiftr_nonneg; lia).
    destruct (Z.eq_dec r 0) as [Hr0|Hr0].
    + rewrite Hr0, Z.shiftr_0_l in Hm2. rewrite Hm2. left. reflexivity.
    + assert (Hrpos : 0 < r) by lia.
      rewrite (Zdigits2_log2 r) in He2 by lia.
      assert (Hlr : Z.log2 r <= Z.log2 q + 1).
      { destruct (Z.eq_dec q 0) as [Hq|Hq].
        - assert (Hr1 : r = 1) by lia. rewrite Hr1, Hq. simpl. lia.
        - apply Z.le_trans with (Z.log2 (Z.succ q)); [apply Z.log2_le_mono; lia|].
          pose proof (Z.log2_succ_le q). lia. }
      assert (Hbd : L + 1 + E = 1024 -> Z.log2 r <= 52).
      { intros Heq. assert (Hn : n1 = L - 52) by lia.
        specialize (Hb Heq). rewrite <- Hn, <- Hm1 in Hb.
        apply Z.lt_succ_r. apply Z.log2_lt_pow2; lia. }
      destruct (shr_m mrs2) as [|m|m]; [left; reflexivity| |lia].
      right. exists m, e2.
      replace (e2 <=? emax - prec) with true by (symmetry; apply Z.leb_le; unfold emax, prec; lia).
      reflexivity.
Qed.

Lemma round_aux_noshift (s : bool) (m : positive) (e : Z) :
  Z.max (Zdigits2 (Zpos m) + e - 53) (-1074) - e <= 0 -> e <= 971 ->
  binary_round_aux prec emax s (Zpos m) e loc_Exact = S754_finite s m e.
Proof.
  intros H1 H2. unfold binary_round_aux.
  rewrite shr_fexp_exact by exact H1. cbn [shr_m loc_of_shr_record round_nearest_even].
  rewrite shr_fexp_exact by exact H1. cbn [shr_m].
  replace (e <=? emax - prec) with true by (symmetry; apply Z.leb_le; unfold emax, prec; lia).
  reflexivity.
Qed.

Lemma round_aux_shift (s : bool) (q : positive) (n E : Z) :
  0 < n -> n = Z.max (Z.log2 (Zpos q) + n + 1 + E - 53) (-1074) - E -> E + n <= 971 ->
  binary_round_aux prec emax s (Zpos q * 2 ^ n) E loc_Exact = S754_finite s q (E + n).
Proof.
  intros Hn HnE Hle.
  assert (HM : 0 < Zpos q * 2 ^ n) by (apply Z.mul_pos_pos; [lia | apply Z.pow_pos_nonneg; lia]).
  assert (HD : Zdigits2 (Zpos q * 2 ^ n) = Z.log2 (Zpos q) + n + 1).
  { rewrite Zdigits2_log2 by exact HM. rewrite Z.log2_mul_pow2 by lia. lia. }
  destruct (Zpos q * 2 ^ n) as [|M|M] eqn:EM; try lia.
  unfold binary_round_aux, shr_fexp. rewrite fexp_eq, HD, <- HnE.
  destruct n as [|p|p]; try lia.
  cbn [shr shr_record_of_loc]. rewrite <- EM, iter_shr_1_exact by lia.
  cbn [shr_m loc_of_shr_record round_nearest_even].
  change (Build_shr_record (Zpos q) false false) with (shr_record_of_loc (Zpos q) loc_Exact).
  fold (shr_fexp prec emax (Zpos q) (E + Zpos p) loc_Exact).
  rewrite shr_fexp_exact.
  2: { rewrite Zdigits2_log2 by lia. lia. }
  cbn [shr_m].
  replace (E + Zpos p <=? emax - prec) with true by (symmetry; apply Z.leb_le; unfold emax, prec; lia).
  reflexivity.
Qed.

Lemma pos_iter_xO (m d : positive) : Zpos (Pos.iter xO m d) = Zpos m * 2 ^ Zpos d.
Proof.
  induction d as [|d IH] using Pos.peano_ind.
  - simpl. lia.
  - rewrite Pos.iter_succ, Pos2Z.inj_xO, IH, Pos2Z.inj_succ, Z.pow_succ_r by lia. ring.
Qed.

Lemma f64_of_int_small (k : positive) : Zpos k < 2 ^ 53 ->
  exists m, Zpos m = Zpos k * 2 ^ (52 - Z.log2 (Zpos k)) /\
            f64_of_int (Zpos k) = S754_finite false m (Z.log2 (Zpos k) - 52).
Proof.
  intros Hk.
  assert (HL : Z.log2 (Zpos k) < 53) by (apply Z.log2_lt_pow2; lia).
  pose proof (Z.log2_nonneg (Zpos k)) as HL0.
  unfold f64_of_int, binary_normalize, binary_round, shl_align.
  rewrite fexp_eq, digits2_pos_log2.
  destruct (Z.max (Z.log2 (Zpos k) + 1 + 0 - 53) (-1074) - 0) as [|d|d] eqn:Hd.
  - exists k. split.
    + replace (52 - Z.log2 (Zpos k)) with 0 by lia. lia.
    + replace (Z.log2 (Zpos k) - 52) with 0 by lia.
      apply round_aux_noshift; [rewrite Zdigits2_log2 by lia; lia | lia].
  - lia.
  - exists (Pos.iter xO k d).
    assert (Hd' : Zpos d = 52 - Z.log2 (Zpos k)) by lia.
    split; [rewrite pos_iter_xO, Hd'; reflexivity|].
    replace (Z.max (Z.log2 (Zpos k) + 1 + 0 - 53) (-1074)) with (Z.log2 (Zpos k) - 52) by lia.
    apply round_aux_noshift; [|lia].
    rewrite Zdigits2_log2 by lia. rewrite pos_iter_xO, Z.log2_mul_pow2 by lia. lia.
Qed.

Lemma gen_scale_eq : gen_scale = S754_finite false 4503599627370496 (-105).
Proof. vm_compute. reflexivity. Qed.

Lemma gen_shape (w : Z) : 0 <= w < 2 ^ 64 ->
  gen_f64_of_u64 w = S754_zero false \/
  exists m e, gen_f64_of_u64 w = S754_finite false m e /\ 2 ^ 52 <= Zpos m < 2 ^ 53 /\ e <= -53.
Proof.
  intros Hw. unfold gen_f64_of_u64. rewrite gen_scale_eq.
  replace (64 - gen_precision) with 11 by reflexivity.
  assert (Hk : 0 <= Z.shiftr w 11 < 2 ^ 53).
  { rewrite Z.shiftr_div_pow2 by lia. split; [apply Z.div_pos; lia|].
    apply Z.div_lt_upper_bound; [lia|]. rewrite <- Z.pow_add_r by lia. exact (proj2 Hw). }
  destruct (Z.shiftr w 11) as [|k|k]; [left; reflexivity| |lia].
  destruct (f64_of_int_small k (proj2 Hk)) as (m & Hm & Hf). rewrite Hf.
  pose proof (Z.log2_nonneg (Zpos k)) as HL0.
  assert (HL : Z.log2 (Zpos k) < 53) by (apply Z.log2_lt_pow2; lia).
  assert (Hlm : Z.log2 (Zpos m) = 52) by (rewrite Hm, Z.log2_mul_pow2; lia).
  right. exists m, (-105 + (Z.log2 (Zpos k) - 52) + 52).
  split; [|split; [|lia]].
  - unfold f64_mul, SFmul. cbn [xorb].
    replace (Zpos (4503599627370496 * m)) with (Zpos m * 2 ^ 52) by lia.
    apply round_aux_shift; lia.
  - pose proof (Z.log2_spec (Zpos m)) as Hs. rewrite Hlm in Hs. lia.
Qed.

Lemma f64_one_eq : f64_of_int 1 = S754_finite false 4503599627370496 (-52).
Proof. vm_compute. reflexivity. Qed.

Lemma gen_bounds (w : Z) : 0 <= w < 2 ^ 64 ->
  f64_le zero (gen_f64_of_u64 w) = true /\ f64_lt (gen_f64_of_u64 w) (f64_of_int 1) = true.
Proof.
  intros Hw. rewrite f64_one_eq.
  destruct (gen_shape w Hw) as [H | (m & e & H & Hm & He)]; rewrite H; [split; reflexivity|].
  split; [reflexivity|]. unfold f64_lt, SFltb, SFcompare.
  replace (e ?= -52) with Lt by (symmetry; apply Z.compare_lt_iff; lia). reflexivity.
Qed.

Lemma draw_at_word (rng : ThreadRng) (k : nat) :
  0 <= rng_words rng (rng_pos rng + k) mod 2 ^ 64 < 2 ^ 64.
Proof. apply Z.mod_pos_bound. lia. Qed.

Lemma valid_log2 (s : bool) (m : positive) (e : Z) :
  valid_binary prec emax (S754_finite s m e) = true -> Z.log2 (Zpos m) <= 52 /\ e <= 971.
Proof.
  unfold valid_binary, bounded, canonical_mantissa. rewrite fexp_eq, digits2_pos_log2.
  intros H. apply andb_prop in H as [H1 H2].
  apply Z.eqb_eq in H1. apply Z.leb_le in H2. unfold emax, prec in H2. lia.
Qed.

Lemma dw_shape (w : Z) (sq : f64) (s : bool) : 0 <= w < 2 ^ 64 ->
  valid_binary prec emax sq = true ->
  (sq = S754_zero s \/ exists m e, sq = S754_finite s m e) ->
  f64_mul (gen_f64_of_u64 w) sq = S754_zero s \/
  exists m e, f64_mul (gen_f64_of_u64 w) sq = S754_finite s m e.
Proof.
  intros Hw Hv Hsq.
  destruct (gen_shape w Hw) as [Hu | (mu & eu & Hu & Hmu & Heu)]; rewrite Hu;
    (destruct Hsq as [Hz | (ms & es & Hf)]; subst sq; [left; reflexivity|]).
  - left. reflexivity.
  - destruct (valid_log2 s ms es Hv) as [Hms Hes].
    unfold f64_mul, SFmul. cbn [xorb].
    assert (Hlmu : Z.log2 (Zpos mu) = 52) by (apply Z.log2_unique; lia).
    pose proof (Z.log2_mul_above (Zpos mu) (Zpos ms) ltac:(lia) ltac:(lia)) as Ha.
    assert (Hms' : Zpos ms < 2 ^ 53) by (apply Z.log2_lt_pow2; lia).
    apply round_aux_finite; rewrite ?Pos2Z.inj_mul; [lia|lia|].
    intros Heq. assert (H105 : Z.log2 (Zpos mu * Zpos ms) = 105) by lia.
    rewrite H105, Z.shiftr_div_pow2 by lia.
    apply Z.div_lt_upper_bound; [lia|].
    assert (Zpos mu * Zpos ms <= (2 ^ 53 - 1) * (2 ^ 53 - 1)) by (apply Z.mul_le_mono_nonneg; lia).
    lia.
Qed.


Lemma gen_zero : gen_f64_of_u64 0 = S754_zero false.
Proof. vm_compute. reflexivity. Qed.

Lemma noise_zero_volatility (w : Z) (sq : f64) (s0 : bool) : 0 <= w < 2 ^ 64 ->
  valid_binary prec emax sq = true ->
  f64_mul (S754_zero s0) (f64_mul (gen_f64_of_u64 w) sq) =
  f64_mul (S754_zero s0) (f64_mul (gen_f64_of_u64 0) sq).
Proof.
  intros Hw Hv. rewrite gen_zero.
  destruct sq as [s|s| |s m e].
  - destruct (dw_shape w (S754_zero s) s Hw Hv (or_introl eq_refl)) as [H | (m' & e' & H)];
      rewrite H; reflexivity.
  - destruct (gen_shape w Hw) as [H | (m' & e' & H & _)]; rewrite H; reflexivity.
  - rewrite !f64_mul_nan_r. reflexivity.
  - destruct (dw_shape w (S754_finite s m e) s Hw Hv (or_intror (ex_intro _ m (ex_intro _ e eq_refl))))
      as [H | (m' & e' & H)]; rewrite H; reflexivity.
Qed.


Section draw_independence.
Variables (self : ArithmeticBrownianMotion) (dt : f64).
Hypothesis step_indep : forall (prev : f64) (w w' : Z), 0 <= w < 2 ^ 64 -> 0 <= w' < 2 ^ 64 ->
  euler_step self dt prev (gen_f64_of_u64 w) = euler_step self dt prev (gen_f64_of_u64 w').

Lemma euler_tail_indep (prev : f64) (n : nat) (rng rng' : ThreadRng) :
  fst (euler_tail self dt prev n rng) = fst (euler_tail self dt prev n rng').
Proof.
  revert prev rng rng'. induction n as [|n IH]; intros prev rng rng'; [reflexivity|].
  rewrite !euler_tail_S. cbv zeta.
  replace (euler_step self dt prev (draw_at rng' 0)) with (euler_step self dt prev (draw_at rng 0))
    by (apply step_indep; apply draw_at_word).
  specialize (IH (euler_step self dt prev (draw_at rng 0)) (advance rng 1) (advance rng' 1)).
  destruct (euler_tail _ _ _ _ (advance rng 1)), (euler_tail _ _ _ _ (advance rng' 1)).
  simpl in *. f_equal. exact IH.
Qed.

Lemma euler_paths_indep (k : nat) (rng rng' : ThreadRng) :
  fst (euler_paths self dt k rng) = fst (euler_paths self dt k rng').
Proof.
  destruct (euler_paths_spec self dt k rng) as (Hl & _ & Hp).
  destruct (euler_paths_spec self dt k rng') as (Hl' & _ & Hp').
  apply list_eq. intros i.
  destruct (fst (euler_paths self dt k rng) !! i) as [p|] eqn:Hi.
  - destruct (lookup_lt_is_Some_2 (fst (euler_paths self dt k rng')) i) as [p' Hi'].
    { apply lookup_lt_Some in Hi. lia. }
    rewrite Hi', (Hp i p Hi), (Hp' i p' Hi'). f_equal. f_equal. apply euler_tail_indep.
  - symmetry. apply lookup_ge_None_2. apply lookup_ge_None_1 in Hi. lia.
Qed.
End draw_independence.

Lemma zero_volatility_step_indep (self : ArithmeticBrownianMotion) (s0 : bool) :
  sigma self = S754_zero s0 -> valid_binary prec emax (f64_sqrt (time_step self)) = true ->
  forall (prev : f64) (w w' : Z), 0 <= w < 2 ^ 64 -> 0 <= w' < 2 ^ 64 ->
    euler_step self (time_step self) prev (gen_f64_of_u64 w) =
    euler_step self (time_step self) prev (gen_f64_of_u64 w').
Proof.
  intros Hs Hv prev w w' Hw Hw'. unfold euler_step. rewrite Hs.
  rewrite (noise_zero_volatility w _ s0 Hw Hv), (noise_zero_volatility w' _ s0 Hw' Hv). reflexivity.
Qed.

(** ** Lemmas used by the claims *)

(** [simulate] always returns [n_paths] paths of [n_steps + 1] entries. *)
Lemma simulate_some_shape (self : ArithmeticBrownianMotion) (rng : ThreadRng) :
  exists paths rng', simulate self rng = Some (paths, rng') /\
    length paths = n_paths self /\ Forall (fun p => length p = S (n_steps self)) paths.
Proof.
  rewrite simulate_refines.
  destruct (euler_paths_spec self (time_step self) (n_paths self) rng) as (Hl & _ & Hp).
  exists (fst (euler_paths self (time_step self) (n_paths self) rng)),
         (snd (euler_paths self (time_step self) (n_paths self) rng)).
  split; [destruct (euler_paths _ _ _ _); reflexivity|]. split; [exact Hl|].
  apply Forall_lookup. intros i p Hi. rewrite (Hp i p Hi). simpl.
  f_equal. apply euler_tail_spec.
Qed.

(** Every draw of [gen::<f64>] lies in [[0, 1)]. *)
Lemma draw_at_unit (rng : ThreadRng) (k : nat) :
  f64_le zero (draw_at rng k) = true /\ f64_lt (draw_at rng k) (f64_of_int 1) = true.
Proof. apply gen_bounds, draw_at_word. Qed.

(** With [sigma = 0.0] (of either sign) the paths do not depend on the draws. *)
Lemma zero_volatility_paths (self : ArithmeticBrownianMotion) (s0 : bool) (rng1 rng2 : ThreadRng) :
  sigma self = S754_zero s0 -> valid_binary prec emax (f64_sqrt (time_step self)) = true ->
  option_map fst (simulate self rng1) = option_map fst (simulate self rng2).
Proof.
  intros Hs Hv. rewrite !simulate_refines. simpl. f_equal.
  apply euler_paths_indep. apply (zero_volatility_step_indep self s0 Hs Hv).
Qed.

(** The spec's scenario, run from the all-zero generator. *)
Lemma abm_det_run : simulate abm_det rng_zero = Some ([abm_det_path], advance rng_zero 4).
Proof. vm_compute. reflexivity. Qed.

(** ** Lemmas for the further properties of [simulate] *)

(** The functional model reads the simulator only through [mu], [sigma],
    [n_steps] and [s_0]. *)
Lemma euler_tail_congr (self self' : ArithmeticBrownianMotion) dt prev (n : nat) rng :
  mu self = mu self' -> sigma self = sigma self' ->
  euler_tail self dt prev n rng = euler_tail self' dt prev n rng.
Proof.
  intros Hm Hs.
  assert (He : forall p g, euler_step self dt p g = euler_step self' dt p g)
    by (intros; unfold euler_step; rewrite Hm, Hs; reflexivity).
  revert prev rng. induction n as [|n IH]; intros prev rng; [reflexivity|].
  rewrite !euler_tail_S. cbv zeta. rewrite He, IH. reflexivity.
Qed.

Lemma euler_paths_congr (self self' : ArithmeticBrownianMotion) dt (k : nat) rng :
  mu self = mu self' -> sigma self = sigma self' -> n_steps self = n_steps self' -> s_0 self = s_0 self' ->
  euler_paths self dt k rng = euler_paths self' dt k rng.
Proof.
  intros Hm Hs Hn H0. revert rng. induction k as [|k IH]; intros rng; [reflexivity|].
  cbn [euler_paths]. unfold euler_path. rewrite Hn, H0, (euler_tail_congr self self') by assumption.
  destruct (euler_tail self' dt (s_0 self') (n_steps self') rng) as [rest r1]. cbn.
  rewrite IH. reflexivity.
Qed.

Lemma euler_paths_app self dt (a b : nat) rng :
  euler_paths self dt (a + b) rng =
  (fst (euler_paths self dt a rng) ++ fst (euler_paths self dt b (snd (euler_paths self dt a rng))),
   snd (euler_paths self dt b (snd (euler_paths self dt a rng)))).
Proof.
  revert rng. induction a as [|a IH]; intros rng.
  - simpl. destruct (euler_paths self dt b rng). reflexivity.
  - cbn [Nat.add euler_paths]. unfold euler_path.
    destruct (euler_tail self dt (s_0 self) (n_steps self) rng) as [rest r1]. cbn.
    rewrite IH. destruct (euler_paths self dt a r1) as [ps r2]. cbn.
    destruct (euler_paths self dt b r2). reflexivity.
Qed.

Lemma time_step_new (self : ArithmeticBrownianMotion) (k : nat) :
  time_step (new (mu self) (sigma self) k (n_steps self) (t_end self) (s_0 self)) = time_step self.
Proof. reflexivity. Qed.

Lemma euler_paths_new (self : ArithmeticBrownianMotion) (k : nat) dt (m : nat) rng :
  euler_paths (new (mu self) (sigma self) k (n_steps self) (t_end self) (s_0 self)) dt m rng =
  euler_paths self dt m rng.
Proof. apply euler_paths_congr; reflexivity. Qed.

Lemma f64_add_nan_l (x : f64) : f64_add S754_nan x = S754_nan.
Proof. reflexivity. Qed.

Lemma f64_mul_nan_l (x : f64) : f64_mul S754_nan x = S754_nan.
Proof. reflexivity. Qed.

(** A NaN entry, or a NaN parameter, makes the next entry NaN. *)
Lemma euler_step_nan_prev self dt g : euler_step self dt S754_nan g = S754_nan.
Proof. reflexivity. Qed.

Lemma euler_step_nan_param self dt prev g :
  f64_is_nan (mu self) || f64_is_nan (sigma self) || f64_is_nan dt = true ->
  euler_step self dt prev g = S754_nan.
Proof.
  intros H. unfold euler_step.
  destruct (mu self) eqn:Hm; destruct (sigma self) eqn:Hs; destruct dt; try discriminate;
    rewrite ?f64_mul_nan_l, ?f64_mul_nan_r, ?f64_add_nan_r, ?f64_add_nan_l; reflexivity.
Qed.

(** With [mu = 0.0], [sigma = 0.0], finite [dt] and [sqrt(dt)], an entry
    that is finite or [+0.0] is repeated. *)
Lemma euler_step_flat self (s1 s2 : bool) (x : f64) (w : Z) :
  mu self = S754_zero s1 -> sigma self = S754_zero s2 ->
  f64_is_finite (time_step self) = true -> f64_is_finite (f64_sqrt (time_step self)) = true ->
  valid_binary prec emax (f64_sqrt (time_step self)) = true ->
  match x with S754_finite _ _ _ | S754_zero false => True | _ => False end ->
  0 <= w < 2 ^ 64 ->
  euler_step self (time_step self) x (gen_f64_of_u64 w) = x.
Proof.
  intros Hm Hs Hdt Hsq Hv Hx Hw. unfold euler_step. rewrite Hm, Hs.
  assert (Hadd : forall s, f64_add x (S754_zero s) = x)
    by (intros s; destruct x as [[]|[]| |sx mx ex]; try contradiction; destruct s; reflexivity).
  assert (Hd : exists s, f64_mul (S754_zero s1) (time_step self) = S754_zero s)
    by (destruct (time_step self) as [sd|sd| |sd md ed]; try discriminate; eexists; reflexivity).
  destruct Hd as [sd Hd]. rewrite Hd, Hadd.
  assert (Hw' : exists s, f64_mul (gen_f64_of_u64 w) (f64_sqrt (time_step self)) = S754_zero s \/
                          exists m e, f64_mul (gen_f64_of_u64 w) (f64_sqrt (time_step self)) = S754_finite s m e).
  { destruct (f64_sqrt (time_step self)) as [sq|sq| |sq mq eq] eqn:Eq; try discriminate.
    - exists sq. apply dw_shape; auto.
    - exists sq. apply dw_shape; eauto. }
  destruct Hw' as (sw & [Hn | (mw & ew & Hn)]); rewrite Hn; apply Hadd.
Qed.

Lemma euler_tail_flat self (s1 s2 : bool) (x : f64) (n : nat) rng :
  mu self = S754_zero s1 -> sigma self = S754_zero s2 ->
  f64_is_finite (time_step self) = true -> f64_is_finite (f64_sqrt (time_step self)) = true ->
  valid_binary prec emax (f64_sqrt (time_step self)) = true ->
  match x with S754_finite _ _ _ | S754_zero false => True | _ => False end ->
  fst (euler_tail self (time_step self) x n rng) = repeat x n.
Proof.
  intros Hm Hs Hdt Hsq Hv Hx. revert rng. induction n as [|n IH]; intros rng; [reflexivity|].
  rewrite euler_tail_S. cbv zeta.
  unfold draw_at. rewrite (euler_step_flat self s1 s2 x _ Hm Hs Hdt Hsq Hv Hx (draw_at_word rng 0)).
  specialize (IH (advance rng 1)). destruct (euler_tail _ _ _ _ _). simpl in *. rewrite IH. reflexivity.
Qed.

(** * The claims *)

(** C1 (the code's draw is not a Wiener increment): the noise of step [j]
    of path [i] is [d_w = u * sqrt(dt)] where [u], the draw number
    [i * n_steps + j] of [gen::<f64>], lies in [[0, 1)]: a uniform draw that
    is never negative, not a standard normal one. *)
Theorem simulate_noise_uniform_draw (self : ArithmeticBrownianMotion) (rng : ThreadRng)
    (paths : list (list f64)) (rng' : ThreadRng) (i j : nat) (p : list f64) :
  simulate self rng = Some (paths, rng') -> paths !! i = Some p -> (j < n_steps self)%nat ->
  exists pj u, p !! j = Some pj /\ u = draw_at rng (i * n_steps self + j) /\
    f64_le zero u = true /\ f64_lt u (f64_of_int 1) = true /\
    p !! S j = Some (f64_add (f64_add pj (f64_mul (mu self) (time_step self)))
                       (f64_mul (sigma self) (f64_mul u (f64_sqrt (time_step self))))).
Proof.
  intros Hs Hi Hj.
  destruct (simulate_step_lookup self rng paths rng' i j p Hs Hi Hj) as (pj & H1 & H2).
  destruct (draw_at_unit rng (i * n_steps self + j)) as [Hu1 Hu2].
  exists pj, (draw_at rng (i * n_steps self + j)). auto 6.
Qed.

(** C2: for every configuration, [simulate()] returns exactly [n_paths]
    sequences and each has exactly [n_steps + 1] entries. *)
Theorem simulate_shape (self : ArithmeticBrownianMotion) (rng : ThreadRng) :
  exists paths rng', simulate self rng = Some (paths, rng') /\
    length paths = n_paths self /\ Forall (fun p => length p = S (n_steps self)) paths.
Proof. exact (simulate_some_shape self rng). Qed.

(** C3: the first entry of every returned sequence is [s_0]. *)
Theorem simulate_starts_at_s_0 (self : ArithmeticBrownianMotion) (rng : ThreadRng)
    (paths : list (list f64)) (rng' : ThreadRng) :
  simulate self rng = Some (paths, rng') ->
  Forall (fun p => p !! 0%nat = Some (s_0 self)) paths.
Proof.
  rewrite simulate_refines. intros Hs. injection Hs as Hps.
  destruct (euler_paths_spec self (time_step self) (n_paths self) rng) as (_ & _ & Hp).
  rewrite Hps in Hp. simpl in Hp. apply Forall_lookup. intros i p Hi. rewrite (Hp i p Hi). reflexivity.
Qed.

(** C4: in path [i], [p[j+1] = p[j] + mu * dt + sigma * d_w] for every
    [j < n_steps], with [dt = t_end / n_steps] and [d_w] the single draw
    number [i * n_steps + j] of the call, times [sqrt(dt)]. *)
Theorem simulate_euler_maruyama_step (self : ArithmeticBrownianMotion) (rng : ThreadRng)
    (paths : list (list f64)) (rng' : ThreadRng) (i j : nat) (p : list f64) :
  simulate self rng = Some (paths, rng') -> paths !! i = Some p -> (j < n_steps self)%nat ->
  exists pj pj1, p !! j = Some pj /\ p !! S j = Some pj1 /\
    pj1 = f64_add (f64_add pj (f64_mul (mu self) (time_step self)))
            (f64_mul (sigma self)
               (f64_mul (draw_at rng (i * n_steps self + j)) (f64_sqrt (time_step self)))).
Proof.
  intros Hs Hi Hj.
  destruct (simulate_step_lookup self rng paths rng' i j p Hs Hi Hj) as (pj & H1 & H2).
  exists pj, (euler_step self (time_step self) pj (draw_at rng (i * n_steps self + j))).
  split; [exact H1|]. split; [exact H2|]. reflexivity.
Qed.

(** C5 (as amended): with [sigma = 0.0] and a well-formed [sqrt(dt)],
    [simulate()] is deterministic: the paths are the same whatever the state
    of the generator.  They are [s_0 + mu * j * dt] only up to rounding: the
    spec's scenario gives
    [[100.0, 100.0125, 100.025, 100.03750000000001, 100.05000000000001]]. *)
Theorem simulate_zero_volatility_deterministic (self : ArithmeticBrownianMotion) (s0 : bool)
    (rng1 rng2 : ThreadRng) :
  sigma self = S754_zero s0 -> valid_binary prec emax (f64_sqrt (time_step self)) = true ->
  option_map fst (simulate self rng1) = option_map fst (simulate self rng2) /\
  option_map fst (simulate abm_det rng1) = Some [abm_det_path].
Proof.
  intros Hs Hv. split; [exact (zero_volatility_paths self s0 rng1 rng2 Hs Hv)|].
  rewrite (zero_volatility_paths abm_det false rng1 rng_zero eq_refl ltac:(vm_compute; reflexivity)).
  rewrite abm_det_run. reflexivity.
Qed.

(** C6 (as amended): there is no configuration error.  For every
    configuration [simulate()] returns [n_paths] paths of [n_steps + 1]
    values; when [dt = t_end / n_steps] is negative every returned path holds
    NaN at every index [1..=n_steps]. *)
Theorem simulate_negative_dt_nan (self : ArithmeticBrownianMotion) (rng : ThreadRng) :
  exists paths rng', simulate self rng = Some (paths, rng') /\ length paths = n_paths self /\
    Forall (fun p => length p = S (n_steps self)) paths /\
    (f64_lt (time_step self) zero = true ->
     Forall (fun p => forall j : nat, (1 <= j <= n_steps self)%nat -> p !! j = Some S754_nan) paths).
Proof.
  destruct (simulate_some_shape self rng) as (paths & rng' & Hs & Hl & Hp).
  exists paths, rng'. split; [exact Hs|]. split; [exact Hl|]. split; [exact Hp|].
  intros Hdt. apply Forall_lookup. intros i p Hi j Hj.
  destruct j as [|j]; [lia|].
  destruct (simulate_step_lookup self rng paths rng' i j p Hs Hi) as (pj & _ & H2); [lia|].
  rewrite H2, euler_step_neg_dt_nan by exact Hdt. reflexivity.
Qed.

(** C7: a call leaves the simulator as it was, and only advances the
    thread-local generator, by [n_paths * n_steps] draws. *)
Theorem simulate_call_frame (w : World) (paths : list (list f64)) (w' : World) :
  simulate_call w = Some (paths, w') ->
  w_sim w' = w_sim w /\ rng_words (w_rng w') = rng_words (w_rng w) /\
  rng_pos (w_rng w') = (rng_pos (w_rng w) + n_paths (w_sim w) * n_steps (w_sim w))%nat.
Proof.
  unfold simulate_call. rewrite simulate_refines. simpl. intros H.
  pose proof (euler_paths_spec (w_sim w) (time_step (w_sim w)) (n_paths (w_sim w)) (w_rng w)) as (_ & Hr & _).
  destruct (euler_paths _ _ _ _) as [ps r]. simpl in *. injection H as _ <-. simpl.
  subst r. simpl. auto.
Qed.

(** C8: [new] is total and stores its six arguments unchanged. *)
Theorem new_fields (mu' sigma' : f64) (n_paths' n_steps' : nat) (t_end' s_0' : f64) :
  let a := new mu' sigma' n_paths' n_steps' t_end' s_0' in
  mu a = mu' /\ sigma a = sigma' /\ n_paths a = n_paths' /\ n_steps a = n_steps' /\
  t_end a = t_end' /\ s_0 a = s_0'.
Proof. simpl. auto 6. Qed.


(** C10: with [n_steps = 0], [simulate()] returns [n_paths] copies of
    [[s_0]] and consumes no draw; the time step [t_end / 0.0], infinite or NaN,
    is never used. *)
Theorem simulate_zero_steps (self : ArithmeticBrownianMotion) (rng : ThreadRng) :
  n_steps self = 0%nat ->
  simulate self rng = Some (repeat [s_0 self] (n_paths self), rng) /\
  f64_is_finite (time_step self) = false.
Proof.
  intros H. rewrite simulate_refines, euler_paths_no_steps by exact H. split; [reflexivity|].
  unfold time_step. rewrite H. destruct (t_end self) as [[]|[]| |[]]; reflexivity.
Qed.

(** ** Witnesses: each claim's hypotheses hold at a concrete input *)

Lemma simulate_noise_uniform_draw_witness :
  simulate abm_det rng_zero = Some ([abm_det_path], advance rng_zero 4) /\
  exists pj u, abm_det_path !! 2%nat = Some pj /\ u = draw_at rng_zero (0 * n_steps abm_det + 2) /\
    f64_le zero u = true /\ f64_lt u (f64_of_int 1) = true /\
    abm_det_path !! 3%nat = Some (f64_add (f64_add pj (f64_mul (mu abm_det) (time_step abm_det)))
                       (f64_mul (sigma abm_det) (f64_mul u (f64_sqrt (time_step abm_det))))).
Proof.
  split; [vm_compute; reflexivity|].
  apply (simulate_noise_uniform_draw abm_det rng_zero [abm_det_path] (advance rng_zero 4) 0 2 abm_det_path);
    [vm_compute; reflexivity | reflexivity | simpl; lia].
Defined.

Lemma simulate_starts_at_s_0_witness :
  simulate abm_det rng_zero = Some ([abm_det_path], advance rng_zero 4) /\
  Forall (fun p => p !! 0%nat = Some (s_0 abm_det)) [abm_det_path].
Proof.
  split; [vm_compute; reflexivity|].
  apply (simulate_starts_at_s_0 abm_det rng_zero [abm_det_path] (advance rng_zero 4)).
  vm_compute. reflexivity.
Defined.

Lemma simulate_euler_maruyama_step_witness :
  simulate abm_det rng_zero = Some ([abm_det_path], advance rng_zero 4) /\
  exists pj pj1, abm_det_path !! 2%nat = Some pj /\ abm_det_path !! 3%nat = Some pj1 /\
    pj1 = f64_add (f64_add pj (f64_mul (mu abm_det) (time_step abm_det)))
            (f64_mul (sigma abm_det)
               (f64_mul (draw_at rng_zero (0 * n_steps abm_det + 2)) (f64_sqrt (time_step abm_det)))).
Proof.
  split; [vm_compute; reflexivity|].
  apply (simulate_euler_maruyama_step abm_det rng_zero [abm_det_path] (advance rng_zero 4) 0 2 abm_det_path);
    [vm_compute; reflexivity | reflexivity | simpl; lia].
Defined.

Lemma simulate_zero_volatility_deterministic_witness :
  sigma abm_det = S754_zero false /\
  valid_binary prec emax (f64_sqrt (time_step abm_det)) = true /\
  option_map fst (simulate abm_det rng_sample) = option_map fst (simulate abm_det rng_zero) /\
  option_map fst (simulate abm_det rng_sample) = Some [abm_det_path].
Proof.
  split; [reflexivity|]. split; [vm_compute; reflexivity|].
  apply (simulate_zero_volatility_deterministic abm_det false rng_sample rng_zero);
    [reflexivity | vm_compute; reflexivity].
Defined.

Lemma simulate_negative_dt_nan_witness :
  f64_lt (time_step abm_neg) zero = true /\
  exists paths rng', simulate abm_neg rng_zero = Some (paths, rng') /\ length paths = n_paths abm_neg /\
    Forall (fun p => length p = S (n_steps abm_neg)) paths /\
    Forall (fun p => forall j : nat, (1 <= j <= n_steps abm_neg)%nat -> p !! j = Some S754_nan) paths.
Proof.
  assert (Hdt : f64_lt (time_step abm_neg) zero = true) by (vm_compute; reflexivity).
  split; [exact Hdt|].
  destruct (simulate_negative_dt_nan abm_neg rng_zero) as (paths & rng' & Hs & Hl & Hp & Hn).
  exists paths, rng'. split; [exact Hs|]. split; [exact Hl|]. split; [exact Hp|].
  exact (Hn Hdt).
Defined.

Lemma simulate_call_frame_witness :
  simulate_call {| w_sim := abm_det; w_rng := rng_zero |} =
    Some ([abm_det_path], {| w_sim := abm_det; w_rng := advance rng_zero 4 |}) /\
  abm_det = abm_det /\ rng_words (advance rng_zero 4) = rng_words rng_zero /\
  rng_pos (advance rng_zero 4) = (rng_pos rng_zero + n_paths abm_det * n_steps abm_det)%nat.
Proof.
  split; [vm_compute; reflexivity|].
  apply (simulate_call_frame {| w_sim := abm_det; w_rng := rng_zero |} [abm_det_path]
           {| w_sim := abm_det; w_rng := advance rng_zero 4 |}).
  vm_compute. reflexivity.
Defined.


Lemma simulate_zero_steps_witness :
  n_steps abm_zero_steps = 0%nat /\
  simulate abm_zero_steps rng_zero = Some (repeat [s_0 abm_zero_steps] (n_paths abm_zero_steps), rng_zero) /\
  f64_is_finite (time_step abm_zero_steps) = false.
Proof.
  split; [reflexivity|]. apply (simulate_zero_steps abm_zero_steps rng_zero). reflexivity.
Defined.

(** ** Counterexamples *)

(** C5: the spec's scenario [drift=0.05, volatility=0.0, path_count=1,
    step_count=4, horizon=1.0, initial_value=100.0] does not give
    [[100.0, 100.0125, 100.025, 100.0375, 100.05]]. *)
Lemma abm_det_not_spec_path :
  option_map fst (simulate abm_det rng_sample) <> Some [abm_det_spec_path].
Proof. vm_compute. intros H. inversion H. Qed.

(** C6: with [horizon = -1.0] the call succeeds and returns NaN. *)
Lemma abm_neg_returns_nan :
  simulate abm_neg rng_zero = Some ([[f64_of_int 100; S754_nan]], advance rng_zero 1).
Proof. vm_compute. reflexivity. Qed.


(** * Further properties of [simulate] *)

(** With [n_paths = 0], [simulate()] returns no path and draws nothing. *)
Theorem simulate_no_paths (mu' sigma' : f64) (n_steps' : nat) (t_end' s_0' : f64) (rng : ThreadRng) :
  simulate (new mu' sigma' 0 n_steps' t_end' s_0') rng = Some ([], rng).
Proof. rewrite simulate_refines. reflexivity. Qed.

(** A run of [a + b] paths is a run of [a] paths followed by a run of [b]
    paths that starts where the first left the generator. *)
Theorem simulate_split_paths (self : ArithmeticBrownianMotion) (a b : nat) (rng : ThreadRng) :
  simulate (new (mu self) (sigma self) (a + b) (n_steps self) (t_end self) (s_0 self)) rng =
  '(ps1, rng1) ← simulate (new (mu self) (sigma self) a (n_steps self) (t_end self) (s_0 self)) rng;
  '(ps2, rng2) ← simulate (new (mu self) (sigma self) b (n_steps self) (t_end self) (s_0 self)) rng1;
  Some (ps1 ++ ps2, rng2).
Proof.
  rewrite !simulate_refines, !time_step_new, !euler_paths_new. cbn [n_paths new]. rewrite euler_paths_app.
  destruct (euler_paths self (time_step self) a rng) as [ps1 r1]. cbn -[simulate].
  rewrite simulate_refines, time_step_new, euler_paths_new. cbn [n_paths new].
  destruct (euler_paths self (time_step self) b r1) as [ps2 r2]. reflexivity.
Qed.

(** Path [i] is what a one-path simulator returns from the generator
    advanced by [i * n_steps] draws: each path uses its own block of draws. *)
Theorem simulate_path_block (self : ArithmeticBrownianMotion) (rng : ThreadRng)
    (paths : list (list f64)) (rng' : ThreadRng) (i : nat) (p : list f64) :
  simulate self rng = Some (paths, rng') -> paths !! i = Some p ->
  simulate (new (mu self) (sigma self) 1 (n_steps self) (t_end self) (s_0 self))
           (advance rng (i * n_steps self)) =
  Some ([p], advance rng (S i * n_steps self)).
Proof.
  rewrite !simulate_refines, time_step_new, euler_paths_new. intros Hs Hi. injection Hs as Hps.
  destruct (euler_paths_spec self (time_step self) (n_paths self) rng) as (_ & _ & Hp).
  rewrite Hps in Hp. simpl in Hp. rewrite (Hp i p Hi).
  cbn [n_paths new euler_paths]. unfold euler_path.
  pose proof (euler_tail_spec self (time_step self) (s_0 self) (n_steps self) (advance rng (i * n_steps self))) as [Hr _].
  destruct (euler_tail _ _ _ _ _) as [rest r1]. simpl in Hr |- *. subst r1.
  rewrite advance_advance. do 3 f_equal. lia.
Qed.

(** Once an entry of a path is NaN, every later entry is NaN. *)
Theorem simulate_nan_absorbing (self : ArithmeticBrownianMotion) (rng : ThreadRng)
    (paths : list (list f64)) (rng' : ThreadRng) (i : nat) (p : list f64) (j k : nat) :
  simulate self rng = Some (paths, rng') -> paths !! i = Some p ->
  p !! j = Some S754_nan -> (j <= k <= n_steps self)%nat -> p !! k = Some S754_nan.
Proof.
  intros Hs Hi Hj Hk. induction k as [|k IH].
  - replace j with 0%nat in Hj by lia. exact Hj.
  - destruct (Nat.eq_dec j (S k)) as [->|Hne]; [exact Hj|].
    destruct (simulate_step_lookup self rng paths rng' i k p Hs Hi) as (pk & H1 & H2); [lia|].
    rewrite IH in H1 by lia. injection H1 as <-. rewrite H2, euler_step_nan_prev. reflexivity.
Qed.

(** A NaN drift, volatility or time step makes every entry after the first
    NaN. *)
Theorem simulate_nan_parameter (self : ArithmeticBrownianMotion) (rng : ThreadRng)
    (paths : list (list f64)) (rng' : ThreadRng) (i : nat) (p : list f64) (j : nat) :
  simulate self rng = Some (paths, rng') -> paths !! i = Some p ->
  f64_is_nan (mu self) || f64_is_nan (sigma self) || f64_is_nan (time_step self) = true ->
  (1 <= j <= n_steps self)%nat -> p !! j = Some S754_nan.
Proof.
  intros Hs Hi Hn Hj. destruct j as [|j]; [lia|].
  destruct (simulate_step_lookup self rng paths rng' i j p Hs Hi) as (pj & _ & H2); [lia|].
  rewrite H2, euler_step_nan_param by exact Hn. reflexivity.
Qed.

(** With [sigma = 0.0] (and a well-formed [sqrt(dt)]), all returned paths
    are equal. *)
Theorem simulate_zero_volatility_paths_equal (self : ArithmeticBrownianMotion) (rng : ThreadRng)
    (paths : list (list f64)) (rng' : ThreadRng) (s0 : bool) (i i' : nat) (p p' : list f64) :
  simulate self rng = Some (paths, rng') -> sigma self = S754_zero s0 ->
  valid_binary prec emax (f64_sqrt (time_step self)) = true ->
  paths !! i = Some p -> paths !! i' = Some p' -> p = p'.
Proof.
  rewrite simulate_refines. intros Hs Hz Hv Hi Hi'. injection Hs as Hps.
  destruct (euler_paths_spec self (time_step self) (n_paths self) rng) as (_ & _ & Hp).
  rewrite Hps in Hp. simpl in Hp. rewrite (Hp i p Hi), (Hp i' p' Hi').
  f_equal. apply euler_tail_indep. exact (zero_volatility_step_indep self s0 Hz Hv).
Qed.

(** With [mu = 0.0], [sigma = 0.0], a finite [dt] with finite
    [sqrt(dt)], and [s_0] finite but not [-0.0], every path is constant:
    [n_paths] copies of [s_0] repeated [n_steps + 1] times. *)
Theorem simulate_flat_paths (self : ArithmeticBrownianMotion) (rng : ThreadRng)
    (paths : list (list f64)) (rng' : ThreadRng) (s1 s2 : bool) :
  simulate self rng = Some (paths, rng') ->
  mu self = S754_zero s1 -> sigma self = S754_zero s2 ->
  f64_is_finite (time_step self) = true -> f64_is_finite (f64_sqrt (time_step self)) = true ->
  valid_binary prec emax (f64_sqrt (time_step self)) = true ->
  match s_0 self with S754_finite _ _ _ | S754_zero false => True | _ => False end ->
  paths = repeat (repeat (s_0 self) (S (n_steps self))) (n_paths self).
Proof.
  rewrite simulate_refines. intros Hs Hm Hz Hdt Hsq Hv H0. injection Hs as Hps.
  change paths with (fst (paths, rng')). rewrite <- Hps.
  generalize (n_paths self) rng. intros k. induction k as [|k IH]; intros r; [reflexivity|].
  cbn [euler_paths]. unfold euler_path.
  pose proof (euler_tail_flat self s1 s2 (s_0 self) (n_steps self) r Hm Hz Hdt Hsq Hv H0) as Ht.
  destruct (euler_tail _ _ _ _ _) as [rest r1]. simpl in Ht. subst rest.
  specialize (IH r1). destruct (euler_paths self (time_step self) k r1) as [ps r2] eqn:Eps.
  simpl in *. rewrite IH. reflexivity.
Qed.

(** ** Witnesses of the further properties *)

Lemma simulate_path_block_witness :
  simulate abm_flat rng_zero = Some (repeat (repeat (f64_of_int 100) 3) 2, advance rng_zero 4) /\
  repeat (repeat (f64_of_int 100) 3) 2 !! 1%nat = Some (repeat (f64_of_int 100) 3) /\
  simulate (new (mu abm_flat) (sigma abm_flat) 1 (n_steps abm_flat) (t_end abm_flat) (s_0 abm_flat))
           (advance rng_zero (1 * n_steps abm_flat)) =
  Some ([repeat (f64_of_int 100) 3], advance rng_zero (2 * n_steps abm_flat)).
Proof.
  split; [vm_compute; reflexivity|]. split; [reflexivity|].
  apply (simulate_path_block abm_flat rng_zero (repeat (repeat (f64_of_int 100) 3) 2) (advance rng_zero 4) 1);
    [vm_compute; reflexivity | reflexivity].
Defined.

Lemma simulate_nan_absorbing_witness :
  simulate abm_nan_horizon rng_zero = Some ([[f64_of_int 100; S754_nan; S754_nan]], advance rng_zero 2) /\
  [f64_of_int 100; S754_nan; S754_nan] !! 1%nat = Some S754_nan /\
  [f64_of_int 100; S754_nan; S754_nan] !! 2%nat = Some S754_nan.
Proof.
  split; [vm_compute; reflexivity|]. split; [reflexivity|].
  apply (simulate_nan_absorbing abm_nan_horizon rng_zero [[f64_of_int 100; S754_nan; S754_nan]]
           (advance rng_zero 2) 0 [f64_of_int 100; S754_nan; S754_nan] 1 2);
    [vm_compute; reflexivity | reflexivity | reflexivity | simpl; lia].
Defined.

Lemma simulate_nan_parameter_witness :
  f64_is_nan (time_step abm_nan_horizon) = true /\
  [f64_of_int 100; S754_nan; S754_nan] !! 2%nat = Some S754_nan.
Proof.
  split; [vm_compute; reflexivity|].
  apply (simulate_nan_parameter abm_nan_horizon rng_zero [[f64_of_int 100; S754_nan; S754_nan]]
           (advance rng_zero 2) 0 [f64_of_int 100; S754_nan; S754_nan] 2);
    [vm_compute; reflexivity | reflexivity | vm_compute; reflexivity | simpl; lia].
Defined.

Lemma simulate_zero_volatility_paths_equal_witness :
  sigma abm_flat = S754_zero false /\
  valid_binary prec emax (f64_sqrt (time_step abm_flat)) = true /\
  repeat (f64_of_int 100) 3 = repeat (f64_of_int 100) 3.
Proof.
  split; [reflexivity|]. split; [vm_compute; reflexivity|].
  apply (simulate_zero_volatility_paths_equal abm_flat rng_zero (repeat (repeat (f64_of_int 100) 3) 2)
           (advance rng_zero 4) false 0 1);
    [vm_compute; reflexivity | reflexivity | vm_compute; reflexivity | reflexivity | reflexivity].
Defined.

Lemma simulate_flat_paths_witness :
  f64_is_finite (time_step abm_flat) = true /\
  f64_is_finite (f64_sqrt (time_step abm_flat)) = true /\
  repeat (repeat (f64_of_int 100) 3) 2 =
    repeat (repeat (s_0 abm_flat) (S (n_steps abm_flat))) (n_paths abm_flat).
Proof.
  split; [vm_compute; reflexivity|]. split; [vm_compute; reflexivity|].
  apply (simulate_flat_paths abm_flat rng_zero (repeat (repeat (f64_of_int 100) 3) 2)
           (advance rng_zero 4) false false);
    [vm_compute; reflexivity | reflexivity | reflexivity | vm_compute; reflexivity
    | vm_compute; reflexivity | vm_compute; reflexivity | vm_compute; exact I].
Defined.

End abm.
